(** * Camera coverage validator: interval merge and coverage walk

    Shallow embedding of [src/camera-coverage.ts].

    The TypeScript source works on [number].  The functions below are
    written once, over an arbitrary numeric carrier offering exactly the
    operations the source uses ([-], [+ 1], [<=], [Math.max]), and are
    then read at three carriers:

    - [Number_Z]: whole-number bounds with exact arithmetic, the
      discrete-unit domain (metres, lux) of every test scenario of the
      source;
    - [Binary64.carrier]: whole-number bounds with the arithmetic of
      [number]: comparisons and [Math.max] are exact, a sum or difference
      is rounded to the nearest double, ties to even.  The two readings
      agree whenever every [max + 1] the code computes is exact, which is
      the case for every [max] from [-2^53] up to [2^53 - 1]
      ([Binary64Facts]); beyond that bound [max + 1] may round up and two
      ranges separated by an uncovered value are merged;
    - [Number_Q]: fractional bounds with exact arithmetic, used only for
      one concrete run on values such as [3/2] where the sums of the code
      are exact.

    [Array.prototype.sort] is stable; with the comparator
    [(a, b) => a.min - b.min] its result is the unique stable arrangement
    by ascending [min], which [sortByMin] computes by stable insertion.
    The sign of a rounded difference is the sign of the exact one, so the
    sorted copy is the same in both whole-number readings.

    The test table of the source and the loop that runs it are embedded in
    [Harness]; what the loop hands to [console.log] is kept as a list of
    strings. *)

From Stdlib Require Strings.String Strings.Ascii.
From Stdlib Require Import ZArith QArith Bool List Lia.
From Stdlib Require Import Sorting.Permutation Sorting.Sorted.
Import ListNotations.

Set Implicit Arguments.

(** ** Numeric carrier *)

Class Number (A : Type) : Type := {
  num_one : A;
  num_add : A -> A -> A;
  num_sub : A -> A -> A;
  num_leb : A -> A -> bool;        (* x <= y *)
  num_nonpos : A -> bool;          (* x <= 0, the sign test of a comparator *)
  num_max : A -> A -> A            (* Math.max *)
}.

#[export] Instance Number_Z : Number Z := {|
  num_one := 1%Z;
  num_add := Z.add;
  num_sub := Z.sub;
  num_leb := Z.leb;
  num_nonpos := fun x => Z.leb x 0;
  num_max := Z.max
|}.

#[export] Instance Number_Q : Number Q := {|
  num_one := 1%Q;
  num_add := Qplus;
  num_sub := Qminus;
  num_leb := Qle_bool;
  num_nonpos := fun x => Qle_bool x 0;
  num_max := fun x y => if Qle_bool x y then y else x
|}.

(** ** Types *)

Record NumericRange (A : Type) : Type := mkRange { min : A; max : A }.

Record CameraSpec (A : Type) : Type :=
  mkCamera { distance : NumericRange A; light : NumericRange A }.

Arguments mkRange {A} _ _.
Arguments mkCamera {A} _ _.

(** ** Core logic *)

Section CoreLogic.
Context {A : Type} `{Number A}.

(** [x > y] and [x >= y] as the source writes them. *)
Definition num_gtb (x y : A) : bool := negb (num_leb x y).
Definition num_geb (x y : A) : bool := num_leb y x.

(** The comparator [(a, b) => a.min - b.min]. *)
Definition compareMin (a b : NumericRange A) : A := num_sub (min a) (min b).

(** Stable insertion: [a] came before every element of [l] in the
    input, so it stays in front of the elements it compares equal to. *)
Fixpoint insertByMin (a : NumericRange A) (l : list (NumericRange A))
  : list (NumericRange A) :=
  match l with
  | [] => [a]
  | b :: l' =>
      if num_nonpos (compareMin a b) then a :: b :: l'
      else b :: insertByMin a l'
  end.

(** [[...availableRanges].sort((a, b) => a.min - b.min)] *)
Fixpoint sortByMin (l : list (NumericRange A)) : list (NumericRange A) :=
  match l with
  | [] => []
  | a :: l' => insertByMin a (sortByMin l')
  end.

(** The [for (let i = 1; ...)] loop together with the final
    [merged.push(current)]: [merged] and [current] are the loop
    variables, [rest] is [sorted[i..]]. *)
Fixpoint mergeLoop (merged : list (NumericRange A)) (current : NumericRange A)
    (rest : list (NumericRange A)) : list (NumericRange A) :=
  match rest with
  | [] => merged ++ [current]
  | next :: rest' =>
      if num_leb (min next) (num_add (max current) num_one)
      then mergeLoop merged
             (mkRange (min current) (num_max (max current) (max next))) rest'
      else mergeLoop (merged ++ [current]) (mkRange (min next) (max next)) rest'
  end.

(** The merge pass: sort, then coalesce starting from [sorted[0]].  The
    source only reaches it with a non-empty array; the empty case is
    given the empty block list. *)
Definition mergeRanges (availableRanges : list (NumericRange A))
  : list (NumericRange A) :=
  match sortByMin availableRanges with
  | [] => []
  | first :: rest => mergeLoop [] (mkRange (min first) (max first)) rest
  end.

(** The [for (const range of merged)] loop with its early returns. *)
Fixpoint coverageWalk (desired : NumericRange A) (coverageStart : A)
    (merged : list (NumericRange A)) : bool :=
  match merged with
  | [] => false
  | range :: merged' =>
      if num_gtb (min range) coverageStart then false
      else if num_geb (max range) (max desired) then true
      else coverageWalk desired (num_add (max range) num_one) merged'
  end.

Definition isRangeFullyCovered (desired : NumericRange A)
    (availableRanges : list (NumericRange A)) : bool :=
  match availableRanges with
  | [] => false
  | _ :: _ => coverageWalk desired (min desired) (mergeRanges availableRanges)
  end.

Definition canCamerasCoverDesiredRange (desiredDistance desiredLight : NumericRange A)
    (hardwareCameras : list (CameraSpec A)) : bool :=
  let distanceRanges := map (@distance A) hardwareCameras in
  let lightRanges := map (@light A) hardwareCameras in
  let distanceCovered := isRangeFullyCovered desiredDistance distanceRanges in
  let lightCovered := isRangeFullyCovered desiredLight lightRanges in
  distanceCovered && lightCovered.

(** ** Vocabulary of the specification *)

(** A range is well formed when [min <= max]. *)
Definition wellFormedb (r : NumericRange A) : bool := num_leb (min r) (max r).

(** [x] lies in the closed range [r]. *)
Definition inRange (x : A) (r : NumericRange A) : bool :=
  num_leb (min r) x && num_leb x (max r).

(** [x] lies in the union of [ranges]. *)
Definition inUnion (x : A) (ranges : list (NumericRange A)) : bool :=
  existsb (inRange x) ranges.

(** The union of [ranges] contains every value of the closed range
    [desired]. *)
Definition unionContains (desired : NumericRange A)
    (ranges : list (NumericRange A)) : Prop :=
  forall x : A, inRange x desired = true -> inUnion x ranges = true.

End CoreLogic.

(** The coverage checker decides containment in the union, for every
    well-formed target and well-formed candidates of carrier [A]. *)
Definition decidesCoverage (A : Type) `{Number A} : Prop :=
  forall (desired : NumericRange A) (ranges : list (NumericRange A)),
    wellFormedb desired = true ->
    Forall (fun r => wellFormedb r = true) ranges ->
    (isRangeFullyCovered desired ranges = true <-> unionContains desired ranges).

Arguments decidesCoverage A {_}.

(** ** Whole-number bounds *)

Definition range : Type := NumericRange Z.

Definition wellFormed (r : range) : Prop := (min r <= max r)%Z.

(** Consecutive blocks are more than one unit apart. *)
Definition apart (a b : range) : Prop := (max a + 1 < min b)%Z.

Definition minLe (a b : range) : Prop := (min a <= min b)%Z.
Definition minLt (a b : range) : Prop := (min a < min b)%Z.

(** A canonical block list: well-formed blocks, each more than one unit
    above the one before it. *)
Definition canonical (l : list range) : Prop :=
  Forall wellFormed l /\ Sorted apart l.

(** Both bounds of [b] are bounds found among [candidates]. *)
Definition boundsAmong (candidates : list range) (b : range) : Prop :=
  (exists r, In r candidates /\ min b = min r) /\
  (exists r, In r candidates /\ max b = max r).

(** Some single camera handles distance [d] together with light [l]. *)
Definition servedByOneCamera (d l : Z) (cameras : list (CameraSpec Z)) : bool :=
  existsb (fun c => inRange d (distance c) && inRange l (light c)) cameras.

(** ** The arithmetic of [number] on whole values *)

Module Binary64.

(** Rounding of a whole value to the nearest double, ties to even: values
    of magnitude below [2^53] are kept; from there on the doubles are
    [2^(e - 52)] apart, [e] being the binary exponent of the value.
    Magnitudes beyond the largest finite double are not modelled. *)
Definition fl (n : Z) : Z :=
  let m := Z.abs n in
  if (m <? 2 ^ 53)%Z then n
  else
    let u := (2 ^ (Z.log2 m - 52))%Z in
    let q := (m / u)%Z in
    let r := (m mod u)%Z in
    let q' := if (2 * r <? u)%Z then q
              else if (u <? 2 * r)%Z then (q + 1)%Z
              else if Z.even q then q else (q + 1)%Z in
    (Z.sgn n * (q' * u))%Z.

(** [a + b] and [a - b] round; [<=] and [Math.max] do not. *)
Definition carrier : Number Z := {|
  num_one := 1%Z;
  num_add := fun x y => fl (x + y);
  num_sub := fun x y => fl (x - y);
  num_leb := Z.leb;
  num_nonpos := fun x => Z.leb x 0;
  num_max := Z.max
|}.

Definition sortByMin : list range -> list range := @sortByMin Z carrier.

Definition mergeLoop : list range -> range -> list range -> list range :=
  @mergeLoop Z carrier.

Definition mergeRanges : list range -> list range := @mergeRanges Z carrier.

Definition coverageWalk : range -> Z -> list range -> bool :=
  @coverageWalk Z carrier.

Definition isRangeFullyCovered : range -> list range -> bool :=
  @isRangeFullyCovered Z carrier.

Definition canCamerasCoverDesiredRange
  : range -> range -> list (CameraSpec Z) -> bool :=
  @canCamerasCoverDesiredRange Z carrier.

(** [x] is a value a [number] holds exactly. *)
Definition representable (x : Z) : Prop := fl x = x.

(** The [max] of [r] is small enough for [max + 1] to be exact. *)
Definition maxExact (r : range) : Prop := (- 2 ^ 53 <= max r < 2 ^ 53)%Z.

End Binary64.

(** ** The test table and the loop that runs it *)

Module Harness.
Import Strings.String.
Local Open Scope string_scope.

Record TestInput : Type := mkInput {
  desiredDistance : range;
  desiredLight : range;
  cameras : list (CameraSpec Z)
}.

Record TestCase : Type := mkTest {
  name : string;
  expected : bool;
  input : TestInput
}.

Definition rg (a b : Z) : range := mkRange a b.
Definition cam (d l : range) : CameraSpec Z := mkCamera d l.

(** [const tests = [...]] *)
Definition tests : list TestCase := [
  mkTest "✅ Full coverage with two complementary cameras" true
    (mkInput (rg 1 10) (rg 100 500)
       [cam (rg 1 5) (rg 100 300); cam (rg 6 10) (rg 301 500)]);
  mkTest "❌ Gap in distance coverage" false
    (mkInput (rg 1 10) (rg 100 500)
       [cam (rg 1 4) (rg 100 500); cam (rg 6 10) (rg 100 500)]);
  mkTest "✅ Overlapping ranges merge correctly" true
    (mkInput (rg 1 8) (rg 50 200)
       [cam (rg 1 5) (rg 50 150); cam (rg 4 8) (rg 120 200)]);
  mkTest "❌ Light range not fully covered" false
    (mkInput (rg 1 10) (rg 100 600)
       [cam (rg 1 10) (rg 100 500)]);
  mkTest "❌ Empty camera list" false
    (mkInput (rg 1 10) (rg 100 500) []);
  mkTest "✅ Single camera covers everything" true
    (mkInput (rg 1 100) (rg 10 1000)
       [cam (rg 1 100) (rg 10 1000)]);
  mkTest "✅ Multiple small cameras form full coverage" true
    (mkInput (rg 1 10) (rg 1 10)
       [cam (rg 1 3) (rg 1 4); cam (rg 4 6) (rg 5 7); cam (rg 7 10) (rg 8 10)]);
  mkTest "❌ Non-overlapping light ranges with gaps" false
    (mkInput (rg 1 10) (rg 1 10)
       [cam (rg 1 10) (rg 1 3); cam (rg 1 10) (rg 5 10)]);
  mkTest "✅ Adjacent ranges merge successfully" true
    (mkInput (rg 1 6) (rg 100 200)
       [cam (rg 1 3) (rg 100 150); cam (rg 4 6) (rg 151 200)]);
  mkTest "❌ Partial coverage only on one dimension (light insufficient)" false
    (mkInput (rg 1 10) (rg 100 200)
       [cam (rg 1 10) (rg 100 150)]);
  mkTest "✅ Unordered camera list handled correctly" true
    (mkInput (rg 1 10) (rg 10 50)
       [cam (rg 6 10) (rg 30 50); cam (rg 1 5) (rg 10 29)]);
  mkTest "❌ Disjoint camera ranges fail coverage" false
    (mkInput (rg 1 3) (rg 1 3)
       [cam (rg 5 10) (rg 5 10)])
].

(** [const actual = canCamerasCoverDesiredRange(...)] *)
Definition actual (t : TestCase) : bool :=
  canCamerasCoverDesiredRange
    (desiredDistance (input t)) (desiredLight (input t)) (cameras (input t)).

(** A boolean inside a template literal. *)
Definition showBool (b : bool) : string := if b then "true" else "false".

(** [`${t.name}: ${actual} (expected ${t.expected})`] *)
Definition reportLine (t : TestCase) : string :=
  name t ++ ": " ++ showBool (actual t)
         ++ " (expected " ++ showBool (expected t) ++ ")".

Definition newline : string := String (Ascii.ascii_of_nat 10) EmptyString.

(** The strings handed to [console.log], one per call, in order. *)
Definition runTests : list string :=
  ("=== SOFTWARE CAMERA COVERAGE TESTS ===" ++ newline) :: map reportLine tests.

(** The output block that README.md gives for a run, one string per
    [console.log] call; the heading carries its own line break. *)
Definition documentedOutput : list string :=
  ("=== SOFTWARE CAMERA COVERAGE TESTS ===" ++ newline) :: [
  "✅ Full coverage with two complementary cameras: true (expected true)";
  "❌ Gap in distance coverage: false (expected false)";
  "✅ Overlapping ranges merge correctly: true (expected true)";
  "❌ Light range not fully covered: false (expected false)";
  "❌ Empty camera list: false (expected false)";
  "✅ Single camera covers everything: true (expected true)";
  "✅ Multiple small cameras form full coverage: true (expected true)";
  "❌ Non-overlapping light ranges with gaps: false (expected false)";
  "✅ Adjacent ranges merge successfully: true (expected true)";
  "❌ Partial coverage only on one dimension (light insufficient): false (expected false)";
  "✅ Unordered camera list handled correctly: true (expected true)";
  "❌ Disjoint camera ranges fail coverage: false (expected false)"
].

End Harness.

(** * Test scenarios of the source, run on the model *)

Module Scenarios.
Open Scope Z_scope.

Example complementary_cameras :
  canCamerasCoverDesiredRange (mkRange 1 10) (mkRange 100 500)
    [mkCamera (mkRange 1 5) (mkRange 100 300);
     mkCamera (mkRange 6 10) (mkRange 301 500)] = true.
Proof. reflexivity. Qed.

Example distance_gap :
  canCamerasCoverDesiredRange (mkRange 1 10) (mkRange 100 500)
    [mkCamera (mkRange 1 4) (mkRange 100 500);
     mkCamera (mkRange 6 10) (mkRange 100 500)] = false.
Proof. reflexivity. Qed.

Example overlapping_ranges :
  canCamerasCoverDesiredRange (mkRange 1 8) (mkRange 50 200)
    [mkCamera (mkRange 1 5) (mkRange 50 150);
     mkCamera (mkRange 4 8) (mkRange 120 200)] = true.
Proof. reflexivity. Qed.

Example light_not_covered :
  canCamerasCoverDesiredRange (mkRange 1 10) (mkRange 100 600)
    [mkCamera (mkRange 1 10) (mkRange 100 500)] = false.
Proof. reflexivity. Qed.

Example empty_camera_list :
  canCamerasCoverDesiredRange (mkRange 1 10) (mkRange 100 500) [] = false.
Proof. reflexivity. Qed.

Example single_camera :
  canCamerasCoverDesiredRange (mkRange 1 100) (mkRange 10 1000)
    [mkCamera (mkRange 1 100) (mkRange 10 1000)] = true.
Proof. reflexivity. Qed.

Example three_small_cameras :
  canCamerasCoverDesiredRange (mkRange 1 10) (mkRange 1 10)
    [mkCamera (mkRange 1 3) (mkRange 1 4);
     mkCamera (mkRange 4 6) (mkRange 5 7);
     mkCamera (mkRange 7 10) (mkRange 8 10)] = true.
Proof. reflexivity. Qed.

Example light_gap :
  canCamerasCoverDesiredRange (mkRange 1 10) (mkRange 1 10)
    [mkCamera (mkRange 1 10) (mkRange 1 3);
     mkCamera (mkRange 1 10) (mkRange 5 10)] = false.
Proof. reflexivity. Qed.

Example adjacent_ranges :
  canCamerasCoverDesiredRange (mkRange 1 6) (mkRange 100 200)
    [mkCamera (mkRange 1 3) (mkRange 100 150);
     mkCamera (mkRange 4 6) (mkRange 151 200)] = true.
Proof. reflexivity. Qed.

Example light_insufficient :
  canCamerasCoverDesiredRange (mkRange 1 10) (mkRange 100 200)
    [mkCamera (mkRange 1 10) (mkRange 100 150)] = false.
Proof. reflexivity. Qed.

Example unordered_cameras :
  canCamerasCoverDesiredRange (mkRange 1 10) (mkRange 10 50)
    [mkCamera (mkRange 6 10) (mkRange 30 50);
     mkCamera (mkRange 1 5) (mkRange 10 29)] = true.
Proof. reflexivity. Qed.

Example disjoint_cameras :
  canCamerasCoverDesiredRange (mkRange 1 3) (mkRange 1 3)
    [mkCamera (mkRange 5 10) (mkRange 5 10)] = false.
Proof. reflexivity. Qed.
End Scenarios.

(** * Facts about the merge pass and the walk over whole numbers *)

Module IntegerBounds.
Open Scope Z_scope.

Lemma range_eta (r : range) : mkRange (min r) (max r) = r.
Proof. destruct r; reflexivity. Qed.

Lemma range_ext (a b : range) : min a = min b -> max a = max b -> a = b.
Proof. destruct a, b; simpl; intros; subst; reflexivity. Qed.

Lemma wellFormedb_iff (r : range) : wellFormedb r = true <-> wellFormed r.
Proof. unfold wellFormedb, wellFormed; simpl. apply Z.leb_le. Qed.

Lemma inRange_iff (x : Z) (r : range) :
  inRange x r = true <-> min r <= x <= max r.
Proof.
  unfold inRange; simpl. rewrite andb_true_iff, !Z.leb_le. tauto.
Qed.

Lemma inUnion_iff (x : Z) (l : list range) :
  inUnion x l = true <-> exists r, In r l /\ min r <= x <= max r.
Proof.
  unfold inUnion. rewrite existsb_exists.
  split; intros [r [Hr Hx]]; exists r; split; auto; now apply inRange_iff.
Qed.

Lemma inUnion_cons (x : Z) (r : range) (l : list range) :
  inUnion x (r :: l) = true <-> min r <= x <= max r \/ inUnion x l = true.
Proof.
  unfold inUnion; simpl. rewrite orb_true_iff, inRange_iff. tauto.
Qed.

Lemma inUnion_app (x : Z) (l1 l2 : list range) :
  inUnion x (l1 ++ l2) = inUnion x l1 || inUnion x l2.
Proof. unfold inUnion. apply existsb_app. Qed.

Lemma inUnion_perm (x : Z) (l1 l2 : list range) :
  Permutation l1 l2 -> inUnion x l1 = inUnion x l2.
Proof.
  intros HP. apply eq_true_iff_eq. rewrite !inUnion_iff.
  split; intros [r [Hr Hx]]; exists r; split; auto.
  - eapply Permutation_in; eauto.
  - eapply Permutation_in; [apply Permutation_sym|]; eauto.
Qed.

(** ** The source's steps, read at [Z] *)

Lemma insertByMin_cons (a b : range) (l : list range) :
  insertByMin a (b :: l) =
    if min a <=? min b then a :: b :: l else b :: insertByMin a l.
Proof.
  simpl. unfold compareMin; simpl.
  replace (min a - min b <=? 0) with (min a <=? min b); [reflexivity|].
  destruct (Z.leb_spec (min a) (min b)), (Z.leb_spec (min a - min b) 0);
    auto; lia.
Qed.

Lemma mergeLoop_cons (merged : list range) (current next : range)
    (rest : list range) :
  mergeLoop merged current (next :: rest) =
    if min next <=? max current + 1
    then mergeLoop merged
           (mkRange (min current) (Z.max (max current) (max next))) rest
    else mergeLoop (merged ++ [current]) next rest.
Proof. simpl. rewrite range_eta. reflexivity. Qed.

Lemma coverageWalk_cons (desired : range) (coverageStart : Z) (r : range)
    (merged : list range) :
  coverageWalk desired coverageStart (r :: merged) =
    if coverageStart <? min r then false
    else if max desired <=? max r then true
    else coverageWalk desired (max r + 1) merged.
Proof.
  simpl. unfold num_gtb, num_geb; simpl.
  rewrite <- Z.ltb_antisym. reflexivity.
Qed.

Lemma mergeRanges_unfold (l : list range) :
  mergeRanges l =
    match sortByMin l with
    | [] => []
    | first :: rest => mergeLoop [] first rest
    end.
Proof.
  unfold mergeRanges. destruct (sortByMin l); [reflexivity|].
  now rewrite range_eta.
Qed.

(** ** Sorting *)

Lemma insertByMin_perm (a : range) (l : list range) :
  Permutation (a :: l) (insertByMin a l).
Proof.
  induction l as [|b l IH]; [reflexivity|].
  rewrite insertByMin_cons. destruct (min a <=? min b); [reflexivity|].
  rewrite perm_swap. now constructor.
Qed.

Lemma sortByMin_perm (l : list range) : Permutation l (sortByMin l).
Proof.
  induction l as [|a l IH]; simpl; [constructor|].
  rewrite <- insertByMin_perm. now constructor.
Qed.

Lemma insertByMin_sorted (a : range) (l : list range) :
  StronglySorted minLe l -> StronglySorted minLe (insertByMin a l).
Proof.
  induction 1 as [|b l Hs IH Hb]; [repeat constructor|].
  rewrite insertByMin_cons. destruct (Z.leb_spec (min a) (min b)).
  - constructor; [now constructor|].
    constructor; [assumption|].
    eapply Forall_impl; [|exact Hb]. unfold minLe. intros; lia.
  - constructor; [assumption|].
    eapply Permutation_Forall; [apply insertByMin_perm|].
    constructor; [unfold minLe; lia | assumption].
Qed.

Lemma sortByMin_sorted (l : list range) : StronglySorted minLe (sortByMin l).
Proof.
  induction l as [|a l IH]; simpl; [constructor|].
  now apply insertByMin_sorted.
Qed.

(** A list already ascending by [min] is left as it is. *)
Lemma sortByMin_ascending (l : list range) :
  Sorted minLe l -> sortByMin l = l.
Proof.
  induction 1 as [|a l Hs IH Hh]; [reflexivity|].
  simpl sortByMin. rewrite IH. destruct Hh as [|b l Hab]; [reflexivity|].
  rewrite insertByMin_cons. unfold minLe in Hab.
  destruct (Z.leb_spec (min a) (min b)); [reflexivity | lia].
Qed.

Lemma sortByMin_nonempty (a : range) (l : list range) : sortByMin (a :: l) <> [].
Proof.
  intros E. pose proof (sortByMin_perm (a :: l)) as HP. rewrite E in HP.
  now apply Permutation_sym, Permutation_nil in HP.
Qed.

(** ** The merge loop *)

(** The accumulator [merged] is only ever appended to. *)
Lemma mergeLoop_acc (rest : list range) :
  forall (merged : list range) (current : range),
    mergeLoop merged current rest = merged ++ mergeLoop [] current rest.
Proof.
  induction rest as [|next rest IH]; intros merged current; [reflexivity|].
  rewrite !mergeLoop_cons. destruct (min next <=? max current + 1).
  - apply IH.
  - rewrite (IH (merged ++ [current])), (IH ([] ++ [current])).
    now rewrite <- app_assoc.
Qed.

Lemma mergeLoop_step (current next : range) (rest : list range) :
  mergeLoop [] current (next :: rest) =
    if min next <=? max current + 1
    then mergeLoop []
           (mkRange (min current) (Z.max (max current) (max next))) rest
    else current :: mergeLoop [] next rest.
Proof.
  rewrite mergeLoop_cons. destruct (min next <=? max current + 1); [reflexivity|].
  now rewrite mergeLoop_acc.
Qed.

Lemma mergeLoop_canonical (rest : list range) :
  forall current : range,
    Forall wellFormed (current :: rest) ->
    StronglySorted minLe (current :: rest) ->
    exists b tl, mergeLoop [] current rest = b :: tl /\
                 min b = min current /\ canonical (b :: tl).
Proof.
  induction rest as [|next rest IH]; intros current Hwf Hs.
  - exists current, []. repeat split; auto.
  - rewrite mergeLoop_step.
    inversion Hwf as [|? ? Hc Hwf']; subst.
    inversion Hwf' as [|? ? Hn Hwf'']; subst.
    inversion Hs as [|? ? Hs' Hle]; subst.
    inversion Hs' as [|? ? Hs'' Hle']; subst.
    inversion Hle as [|? ? Hcn Hle'']; subst.
    unfold wellFormed, minLe in *.
    destruct (Z.leb_spec (min next) (max current + 1)) as [Hadj|Hgap].
    + destruct (IH (mkRange (min current) (Z.max (max current) (max next))))
        as (b & tl & E & Hb & Hcan).
      * constructor; [unfold wellFormed; simpl; lia | assumption].
      * constructor; assumption.
      * exists b, tl. auto.
    + destruct (IH next Hwf' Hs') as (b & tl & E & Hb & [Hbw Hba]).
      exists current, (b :: tl). rewrite E. repeat split; auto.
      constructor; [assumption|]. constructor. unfold apart. lia.
Qed.

(** Coalescing keeps the union of the ranges, over whole numbers. *)
Lemma mergeLoop_union (x : Z) (rest : list range) :
  forall current : range,
    Forall wellFormed (current :: rest) ->
    StronglySorted minLe (current :: rest) ->
    inUnion x (mergeLoop [] current rest) = inUnion x (current :: rest).
Proof.
  induction rest as [|next rest IH]; intros current Hwf Hs; [reflexivity|].
  rewrite mergeLoop_step.
  inversion Hwf as [|? ? Hc Hwf']; subst.
  inversion Hwf' as [|? ? Hn Hwf'']; subst.
  inversion Hs as [|? ? Hs' Hle]; subst.
  inversion Hs' as [|? ? Hs'' Hle']; subst.
  inversion Hle as [|? ? Hcn Hle'']; subst.
  unfold wellFormed, minLe in *.
  destruct (Z.leb_spec (min next) (max current + 1)) as [Hadj|Hgap].
  - rewrite IH.
    + apply eq_true_iff_eq. rewrite !inUnion_cons. simpl.
      generalize (inUnion x rest = true). intros P.
      assert (min current <= x <= Z.max (max current) (max next) <->
              min current <= x <= max current \/ min next <= x <= max next)
        by lia.
      tauto.
    + constructor; [unfold wellFormed; simpl; lia | assumption].
    + constructor; assumption.
  - apply eq_true_iff_eq. rewrite inUnion_cons, (IH next Hwf' Hs').
    now rewrite <- inUnion_cons.
Qed.

(** ** The merge pass as a whole *)

Lemma Forall_wellFormed_sort (l : list range) :
  Forall wellFormed l -> Forall wellFormed (sortByMin l).
Proof. apply Permutation_Forall, sortByMin_perm. Qed.

Lemma mergeRanges_canonical (l : list range) :
  l <> [] -> Forall wellFormed l ->
  exists b tl, mergeRanges l = b :: tl /\ canonical (b :: tl).
Proof.
  intros Hne Hwf. rewrite mergeRanges_unfold.
  pose proof (sortByMin_sorted l) as Hs.
  pose proof (Forall_wellFormed_sort Hwf) as Hw.
  destruct (sortByMin l) as [|first rest] eqn:E.
  - destruct l; [congruence | now apply sortByMin_nonempty in E].
  - destruct (mergeLoop_canonical Hw Hs) as (b & tl & Eb & _ & Hcan).
    eauto.
Qed.

Lemma mergeRanges_union (x : Z) (l : list range) :
  Forall wellFormed l -> inUnion x (mergeRanges l) = inUnion x l.
Proof.
  intros Hwf. rewrite mergeRanges_unfold.
  rewrite (inUnion_perm x (sortByMin_perm l)).
  pose proof (sortByMin_sorted l) as Hs.
  pose proof (Forall_wellFormed_sort Hwf) as Hw.
  destruct (sortByMin l) as [|first rest]; [reflexivity|].
  now apply mergeLoop_union.
Qed.

(** ** Canonical block lists are determined by their union *)

Lemma canonical_tail_above (b : range) (tl : list range) :
  canonical (b :: tl) -> Forall (fun r => max b + 1 < min r) tl.
Proof.
  revert b. induction tl as [|c tl IH]; intros b [Hwf Hs]; [constructor|].
  inversion Hwf as [|? ? Hb Hwf']; subst.
  inversion Hs as [|? ? Hs' Hhd]; subst.
  inversion Hhd as [|? ? Hbc]; subst.
  inversion Hwf' as [|? ? Hc _]; subst.
  unfold apart, wellFormed in *.
  constructor; [assumption|].
  eapply Forall_impl; [|apply (IH c); split; assumption].
  simpl. intros; lia.
Qed.

Lemma canonical_tail (b : range) (tl : list range) :
  canonical (b :: tl) -> canonical tl.
Proof.
  intros [Hwf Hs]. split.
  - now inversion Hwf.
  - now inversion Hs.
Qed.

Lemma inUnion_above (x lo : Z) (l : list range) :
  Forall (fun r => lo < min r) l -> inUnion x l = true -> lo < x.
Proof.
  intros HF Hx. apply inUnion_iff in Hx. destruct Hx as (r & Hr & Hx).
  rewrite Forall_forall in HF. specialize (HF r Hr). simpl in HF. lia.
Qed.

(** Membership in a canonical list, split at its lowest block. *)
Lemma canonical_member (x : Z) (b : range) (tl : list range) :
  canonical (b :: tl) ->
  inUnion x (b :: tl) = true ->
  min b <= x <= max b \/ (max b + 1 < x /\ inUnion x tl = true).
Proof.
  intros Hcan Hx. apply inUnion_cons in Hx. destruct Hx as [Hx|Hx]; [now left|].
  right. split; [|assumption].
  eapply inUnion_above; [apply canonical_tail_above|]; eassumption.
Qed.

Lemma canonical_head_wellFormed (b : range) (tl : list range) :
  canonical (b :: tl) -> min b <= max b.
Proof. intros [Hwf _]. now inversion Hwf. Qed.

(** Nothing of the union lies below the lowest block, nor right after it. *)
Lemma canonical_lower (x : Z) (b : range) (tl : list range) :
  canonical (b :: tl) -> inUnion x (b :: tl) = true -> min b <= x.
Proof.
  intros Hcan Hx. pose proof (canonical_head_wellFormed Hcan).
  destruct (canonical_member x Hcan Hx); lia.
Qed.

Lemma canonical_gap (b : range) (tl : list range) :
  canonical (b :: tl) -> inUnion (max b + 1) (b :: tl) = false.
Proof.
  intros Hcan. destruct (inUnion (max b + 1) (b :: tl)) eqn:E; [|reflexivity].
  destruct (canonical_member _ Hcan E); lia.
Qed.

(** A well-formed range inside the union that starts within or right
    after the lowest block ends within that block. *)
Lemma canonical_absorbs (b : range) (tl : list range) (lo hi : Z) :
  canonical (b :: tl) ->
  (forall x, lo <= x <= hi -> inUnion x (b :: tl) = true) ->
  lo <= hi -> lo <= max b + 1 ->
  min b <= lo /\ hi <= max b.
Proof.
  intros Hcan Hsub Hwf Hlo.
  pose proof (canonical_head_wellFormed Hcan) as Hb.
  pose proof (canonical_lower lo Hcan (Hsub lo ltac:(lia))) as Hmin.
  split; [assumption|].
  destruct (Z_le_gt_dec hi (max b)) as [|Hgt]; [assumption|exfalso].
  pose proof (canonical_gap Hcan) as Hgap.
  rewrite (Hsub (max b + 1)) in Hgap by lia. discriminate.
Qed.

Theorem canonical_unique (l1 : list range) :
  forall l2 : list range,
    canonical l1 -> canonical l2 ->
    (forall x, inUnion x l1 = inUnion x l2) ->
    l1 = l2.
Proof.
  induction l1 as [|b1 t1 IH]; intros [|b2 t2] H1 H2 Heq.
  - reflexivity.
  - pose proof (canonical_head_wellFormed H2).
    assert (Hx : inUnion (min b2) (b2 :: t2) = true)
      by (apply inUnion_cons; lia).
    rewrite <- Heq in Hx. discriminate.
  - pose proof (canonical_head_wellFormed H1).
    assert (Hx : inUnion (min b1) (b1 :: t1) = true)
      by (apply inUnion_cons; lia).
    rewrite Heq in Hx. discriminate.
  - pose proof (canonical_head_wellFormed H1) as Hw1.
    pose proof (canonical_head_wellFormed H2) as Hw2.
    assert (Hb1 : forall x, min b1 <= x <= max b1 -> inUnion x (b2 :: t2) = true).
    { intros x Hx. rewrite <- Heq. apply inUnion_cons. now left. }
    assert (Hb2 : forall x, min b2 <= x <= max b2 -> inUnion x (b1 :: t1) = true).
    { intros x Hx. rewrite Heq. apply inUnion_cons. now left. }
    pose proof (canonical_lower _ H2 (Hb1 (min b1) ltac:(lia))) as Hlo1.
    pose proof (canonical_lower _ H1 (Hb2 (min b2) ltac:(lia))) as Hlo2.
    destruct (canonical_absorbs H2 Hb1 Hw1 ltac:(lia)) as [_ Hhi1].
    destruct (canonical_absorbs H1 Hb2 Hw2 ltac:(lia)) as [_ Hhi2].
    assert (b1 = b2) as -> by (apply range_ext; lia).
    f_equal. apply IH; try (eapply canonical_tail; eassumption).
    intros x. specialize (Heq x).
    pose proof (canonical_tail_above H1) as Ha1.
    pose proof (canonical_tail_above H2) as Ha2.
    destruct (inUnion x t1) eqn:E1, (inUnion x t2) eqn:E2; try reflexivity.
    + pose proof (inUnion_above x Ha1 E1).
      assert (Hx : inUnion x (b2 :: t2) = true)
        by (rewrite <- Heq; apply inUnion_cons; now right).
      apply inUnion_cons in Hx. destruct Hx; [lia | congruence].
    + pose proof (inUnion_above x Ha2 E2).
      assert (Hx : inUnion x (b2 :: t1) = true)
        by (rewrite Heq; apply inUnion_cons; now right).
      apply inUnion_cons in Hx. destruct Hx; [lia | congruence].
Qed.

(** The merged blocks depend on the candidates only through their union,
    hence not on their order. *)
Lemma mergeRanges_perm (l1 l2 : list range) :
  Forall wellFormed l1 -> Permutation l1 l2 -> mergeRanges l1 = mergeRanges l2.
Proof.
  intros Hwf HP.
  assert (Hwf2 : Forall wellFormed l2) by (eapply Permutation_Forall; eauto).
  destruct l1 as [|a1 l1].
  { apply Permutation_nil in HP. now subst. }
  destruct l2 as [|a2 l2].
  { apply Permutation_sym, Permutation_nil in HP. discriminate. }
  destruct (@mergeRanges_canonical (a1 :: l1)) as (b1 & t1 & E1 & Hc1);
    [discriminate | assumption |].
  destruct (@mergeRanges_canonical (a2 :: l2)) as (b2 & t2 & E2 & Hc2);
    [discriminate | assumption |].
  rewrite E1, E2. apply canonical_unique; try assumption.
  intros x. rewrite <- E1, <- E2, !mergeRanges_union by assumption.
  now apply inUnion_perm.
Qed.

(** ** The coverage walk over canonical blocks *)

(** Only the lowest block can succeed: a later block starts beyond
    [max + 1] of the one before it, which is where the walk has moved
    [coverageStart]. *)
Lemma coverageWalk_canonical (desired b : range) (tl : list range) :
  Sorted apart (b :: tl) ->
  coverageWalk desired (min desired) (b :: tl) =
    (min b <=? min desired) && (max desired <=? max b).
Proof.
  intros Hs. rewrite coverageWalk_cons.
  destruct (Z.ltb_spec (min desired) (min b)) as [Hlt|Hge].
  - destruct (Z.leb_spec (min b) (min desired)); [lia | reflexivity].
  - destruct (Z.leb_spec (min b) (min desired)); [simpl | lia].
    destruct (max desired <=? max b); [reflexivity|].
    destruct tl as [|c tl]; [reflexivity|].
    rewrite coverageWalk_cons.
    inversion Hs as [|? ? _ Hhd]; subst. inversion Hhd as [|? ? Hbc]; subst.
    unfold apart in Hbc.
    destruct (Z.ltb_spec (max b + 1) (min c)); [reflexivity | lia].
Qed.

(** What the checker computes on well-formed candidates: whether the
    lowest merged block spans the target. *)
Lemma isRangeFullyCovered_lowest_block (desired : range) (l : list range) :
  l <> [] -> Forall wellFormed l ->
  exists b tl, mergeRanges l = b :: tl /\ canonical (b :: tl) /\
    isRangeFullyCovered desired l =
      (min b <=? min desired) && (max desired <=? max b).
Proof.
  intros Hne Hwf.
  destruct (mergeRanges_canonical Hne Hwf) as (b & tl & E & Hcan).
  exists b, tl. repeat split; try assumption; try apply Hcan.
  destruct l as [|a l]; [congruence|].
  unfold isRangeFullyCovered. rewrite E.
  apply coverageWalk_canonical, Hcan.
Qed.

Lemma isRangeFullyCovered_value (desired : range) (l : list range) :
  Forall wellFormed l ->
  isRangeFullyCovered desired l =
    match mergeRanges l with
    | [] => false
    | b :: _ => (min b <=? min desired) && (max desired <=? max b)
    end.
Proof.
  intros Hwf. destruct l as [|a l]; [reflexivity|].
  destruct (@isRangeFullyCovered_lowest_block desired (a :: l))
    as (b & tl & E & _ & ->); [discriminate | assumption |].
  now rewrite E.
Qed.

Lemma isRangeFullyCovered_sound (desired : range) (l : list range) :
  Forall wellFormed l ->
  isRangeFullyCovered desired l = true -> unionContains desired l.
Proof.
  intros Hwf. rewrite isRangeFullyCovered_value by assumption.
  destruct (mergeRanges l) as [|b tl] eqn:E; [discriminate|].
  rewrite andb_true_iff, !Z.leb_le. intros [Hlo Hhi] x Hx.
  apply inRange_iff in Hx.
  rewrite <- mergeRanges_union, E by assumption.
  apply inUnion_cons. left. lia.
Qed.

(** A candidate that starts within or right after the lowest block lies
    inside that block. *)
Lemma lowest_block_absorbs (l : list range) (b : range) (tl : list range)
    (r : range) :
  Forall wellFormed l -> mergeRanges l = b :: tl -> canonical (b :: tl) ->
  In r l -> min r <= max b + 1 ->
  min b <= min r /\ max r <= max b.
Proof.
  intros Hwf E Hcan Hr Hreach.
  rewrite Forall_forall in Hwf. pose proof (Hwf r Hr) as Hrw.
  unfold wellFormed in Hrw.
  apply (canonical_absorbs Hcan); try lia.
  intros x Hx. rewrite <- E, mergeRanges_union by (now apply Forall_forall).
  apply inUnion_iff. exists r. auto.
Qed.

(** The lowest block starts where the lowest candidate starts, and that
    candidate ends inside it. *)
Lemma lowest_block_candidate (l : list range) (b : range) (tl : list range) :
  Forall wellFormed l -> mergeRanges l = b :: tl -> canonical (b :: tl) ->
  exists r, In r l /\ min r = min b /\ max r <= max b.
Proof.
  intros Hwf E Hcan.
  pose proof (canonical_head_wellFormed Hcan) as Hb.
  assert (Hx : inUnion (min b) l = true).
  { rewrite <- mergeRanges_union, E by assumption. apply inUnion_cons. lia. }
  apply inUnion_iff in Hx. destruct Hx as (r & Hr & Hrb).
  destruct (lowest_block_absorbs r Hwf E Hcan Hr ltac:(lia)).
  exists r. repeat split; auto; lia.
Qed.

End IntegerBounds.

(** * The arithmetic of [number] against exact arithmetic *)

Module Binary64Facts.
Import IntegerBounds.
Open Scope Z_scope.

Lemma fl_small (n : Z) : - 2 ^ 53 <= n <= 2 ^ 53 -> Binary64.fl n = n.
Proof.
  intros Hn. unfold Binary64.fl.
  destruct (Z.ltb_spec (Z.abs n) (2 ^ 53)); [reflexivity|].
  assert (Hc : n = 2 ^ 53 \/ n = - 2 ^ 53) by lia.
  destruct Hc as [-> | ->]; vm_compute; reflexivity.
Qed.

(** Rounding keeps the sign. *)
Lemma fl_sign (n : Z) : (Binary64.fl n <=? 0) = (n <=? 0).
Proof.
  unfold Binary64.fl.
  destruct (Z.ltb_spec (Z.abs n) (2 ^ 53)) as [|Hbig]; [reflexivity|].
  set (m := Z.abs n) in *.
  assert (Hm : 0 < m) by lia.
  assert (Hlog : 53 <= Z.log2 m).
  { change 53 with (Z.log2 (2 ^ 53)). apply Z.log2_le_mono. lia. }
  set (u := 2 ^ (Z.log2 m - 52)).
  assert (Hu : 0 < u) by (apply Z.pow_pos_nonneg; lia).
  assert (Hum : u <= m).
  { transitivity (2 ^ Z.log2 m).
    - apply Z.pow_le_mono_r; lia.
    - apply Z.log2_spec. lia. }
  assert (Hq : 0 < m / u) by (apply Z.div_str_pos; lia).
  set (q := m / u) in *. set (r := m mod u).
  set (q' := if 2 * r <? u then q else if u <? 2 * r then q + 1
             else if Z.even q then q else q + 1).
  assert (Hq' : 0 < q').
  { unfold q'. destruct (2 * r <? u), (u <? 2 * r), (Z.even q); lia. }
  assert (Hp : 0 < q' * u) by nia.
  destruct (Z.leb_spec n 0), (Z.leb_spec (Z.sgn n * (q' * u)) 0);
    try reflexivity.
  - assert (Z.sgn n = -1) by (apply Z.sgn_neg; lia). nia.
  - assert (Z.sgn n = 1) by (apply Z.sgn_pos; lia). nia.
Qed.

Lemma maxExact_succ (r : range) :
  Binary64.maxExact r -> Binary64.fl (max r + 1) = max r + 1.
Proof. unfold Binary64.maxExact. intros Hr. apply fl_small. lia. Qed.

(** ** The source's steps, read with rounding *)

Lemma insertByMin64_cons (a b : range) (l : list range) :
  @insertByMin Z Binary64.carrier a (b :: l) =
    if Binary64.fl (min a - min b) <=? 0 then a :: b :: l
    else b :: @insertByMin Z Binary64.carrier a l.
Proof. reflexivity. Qed.

Lemma mergeLoop64_cons (merged : list range) (current next : range)
    (rest : list range) :
  Binary64.mergeLoop merged current (next :: rest) =
    if min next <=? Binary64.fl (max current + 1)
    then Binary64.mergeLoop merged
           (mkRange (min current) (Z.max (max current) (max next))) rest
    else Binary64.mergeLoop (merged ++ [current]) next rest.
Proof.
  unfold Binary64.mergeLoop. cbn [mergeLoop].
  rewrite range_eta. reflexivity.
Qed.

Lemma coverageWalk64_cons (desired : range) (coverageStart : Z) (r : range)
    (merged : list range) :
  Binary64.coverageWalk desired coverageStart (r :: merged) =
    if coverageStart <? min r then false
    else if max desired <=? max r then true
    else Binary64.coverageWalk desired (Binary64.fl (max r + 1)) merged.
Proof.
  unfold Binary64.coverageWalk. cbn [coverageWalk].
  unfold num_gtb, num_geb. cbn [num_leb num_add num_one Binary64.carrier].
  rewrite <- Z.ltb_antisym. reflexivity.
Qed.

Lemma mergeRanges64_unfold (l : list range) :
  Binary64.mergeRanges l =
    match Binary64.sortByMin l with
    | [] => []
    | first :: rest => Binary64.mergeLoop [] first rest
    end.
Proof.
  unfold Binary64.mergeRanges, mergeRanges, Binary64.sortByMin.
  destruct (@sortByMin Z Binary64.carrier l); [reflexivity|].
  now rewrite range_eta.
Qed.

(** ** Where the two readings agree *)

Lemma insertByMin_agrees (a : range) (l : list range) :
  @insertByMin Z Binary64.carrier a l = insertByMin a l.
Proof.
  induction l as [|b l IH]; [reflexivity|].
  rewrite insertByMin64_cons, insertByMin_cons, fl_sign, IH.
  replace (min a - min b <=? 0) with (min a <=? min b); [reflexivity|].
  destruct (Z.leb_spec (min a) (min b)), (Z.leb_spec (min a - min b) 0);
    auto; lia.
Qed.

(** The sorted copy never depends on rounding. *)
Lemma sortByMin_agrees (l : list range) : Binary64.sortByMin l = sortByMin l.
Proof.
  unfold Binary64.sortByMin.
  induction l as [|a l IH]; [reflexivity|].
  cbn [sortByMin]. rewrite IH. apply insertByMin_agrees.
Qed.

Lemma maxExact_merge (current next : range) :
  Binary64.maxExact current -> Binary64.maxExact next ->
  Binary64.maxExact (mkRange (min current) (Z.max (max current) (max next))).
Proof. unfold Binary64.maxExact. simpl. lia. Qed.

Lemma mergeLoop_agrees (rest : list range) :
  forall (merged : list range) (current : range),
    Binary64.maxExact current -> Forall Binary64.maxExact rest ->
    Binary64.mergeLoop merged current rest = mergeLoop merged current rest.
Proof.
  induction rest as [|next rest IH]; intros merged current Hc Hr;
    [reflexivity|].
  inversion Hr as [|? ? Hn Hr']; subst.
  rewrite mergeLoop64_cons, mergeLoop_cons, (maxExact_succ Hc).
  destruct (min next <=? max current + 1).
  - apply IH; [now apply maxExact_merge | assumption].
  - now apply IH.
Qed.

Lemma mergeLoop_maxExact (rest : list range) :
  forall (merged : list range) (current : range),
    Forall Binary64.maxExact merged -> Binary64.maxExact current ->
    Forall Binary64.maxExact rest ->
    Forall Binary64.maxExact (mergeLoop merged current rest).
Proof.
  induction rest as [|next rest IH]; intros merged current Hm Hc Hr.
  - simpl. apply Forall_app. split; [assumption | now constructor].
  - inversion Hr as [|? ? Hn Hr']; subst. rewrite mergeLoop_cons.
    destruct (min next <=? max current + 1).
    + apply IH; try assumption. now apply maxExact_merge.
    + apply IH; try assumption.
      apply Forall_app. split; [assumption | now constructor].
Qed.

Lemma mergeRanges_agrees (l : list range) :
  Forall Binary64.maxExact l -> Binary64.mergeRanges l = mergeRanges l.
Proof.
  intros Hl. rewrite mergeRanges64_unfold, mergeRanges_unfold, sortByMin_agrees.
  pose proof (Permutation_Forall (sortByMin_perm l) Hl) as Hs.
  destruct (sortByMin l) as [|first rest]; [reflexivity|].
  inversion Hs; subst. now apply mergeLoop_agrees.
Qed.

Lemma mergeRanges_maxExact (l : list range) :
  Forall Binary64.maxExact l -> Forall Binary64.maxExact (mergeRanges l).
Proof.
  intros Hl. rewrite mergeRanges_unfold.
  pose proof (Permutation_Forall (sortByMin_perm l) Hl) as Hs.
  destruct (sortByMin l) as [|first rest]; [constructor|].
  inversion Hs; subst. now apply mergeLoop_maxExact.
Qed.

Lemma coverageWalk_agrees (desired : range) (blocks : list range) :
  forall coverageStart : Z,
    Forall Binary64.maxExact blocks ->
    Binary64.coverageWalk desired coverageStart blocks =
    coverageWalk desired coverageStart blocks.
Proof.
  induction blocks as [|b tl IH]; intros coverageStart Hb; [reflexivity|].
  inversion Hb as [|? ? Hh Ht]; subst.
  rewrite coverageWalk64_cons, coverageWalk_cons, (maxExact_succ Hh).
  now rewrite IH.
Qed.

(** With every candidate [max] from [-2^53] up to [2^53 - 1], the code's
    arithmetic gives the answer of exact arithmetic, for every target. *)
Lemma isRangeFullyCovered_agrees (desired : range) (l : list range) :
  Forall Binary64.maxExact l ->
  Binary64.isRangeFullyCovered desired l = isRangeFullyCovered desired l.
Proof.
  intros Hl. destruct l as [|a l]; [reflexivity|].
  change (Binary64.coverageWalk desired (min desired)
            (Binary64.mergeRanges (a :: l)) =
          coverageWalk desired (min desired) (mergeRanges (a :: l))).
  rewrite (mergeRanges_agrees Hl).
  apply coverageWalk_agrees. now apply mergeRanges_maxExact.
Qed.

Lemma canCamerasCoverDesiredRange_agrees (desiredDistance desiredLight : range)
    (hardwareCameras : list (CameraSpec Z)) :
  Forall Binary64.maxExact (map (@distance Z) hardwareCameras) ->
  Forall Binary64.maxExact (map (@light Z) hardwareCameras) ->
  Binary64.canCamerasCoverDesiredRange desiredDistance desiredLight
    hardwareCameras =
  canCamerasCoverDesiredRange desiredDistance desiredLight hardwareCameras.
Proof.
  intros Hd Hl.
  change (Binary64.isRangeFullyCovered desiredDistance
            (map (@distance Z) hardwareCameras)
          && Binary64.isRangeFullyCovered desiredLight
               (map (@light Z) hardwareCameras) =
          isRangeFullyCovered desiredDistance (map (@distance Z) hardwareCameras)
          && isRangeFullyCovered desiredLight (map (@light Z) hardwareCameras)).
  now rewrite !isRangeFullyCovered_agrees.
Qed.

(** Over whole numbers with exact arithmetic: when no whole number between
    the lowest candidate [min] and [desired.min] is left uncovered, a
    target inside the union is reported covered. *)
Lemma covered_when_no_gap_below (desired : range) (l : list range) :
  wellFormed desired -> Forall wellFormed l ->
  (forall r x, In r l -> min r <= x < min desired -> inUnion x l = true) ->
  unionContains desired l ->
  isRangeFullyCovered desired l = true.
Proof.
  intros Hd Hwf Hbelow Hall. unfold wellFormed in Hd.
  assert (Hin : forall x, min desired <= x <= max desired -> inUnion x l = true)
    by (intros x Hx; apply Hall, inRange_iff; exact Hx).
  destruct l as [|a l].
  { specialize (Hin (min desired) ltac:(lia)). discriminate. }
  destruct (@isRangeFullyCovered_lowest_block desired (a :: l))
    as (b & tl & E & Hcan & ->); [discriminate | assumption |].
  pose proof (canonical_head_wellFormed Hcan) as Hb.
  destruct (lowest_block_candidate Hwf E Hcan) as (r & Hr & Hrmin & _).
  assert (Hmerged : forall x, inUnion x (b :: tl) = inUnion x (a :: l))
    by (intros x; rewrite <- E; now apply mergeRanges_union).
  assert (Hlow : min b <= min desired).
  { apply (canonical_lower _ Hcan). rewrite Hmerged. apply Hin. lia. }
  assert (Hsub : forall x, min b <= x <= max desired ->
                           inUnion x (b :: tl) = true).
  { intros x Hx. rewrite Hmerged.
    destruct (Z_lt_le_dec x (min desired)).
    - apply (Hbelow r x Hr). lia.
    - apply Hin. lia. }
  destruct (canonical_absorbs Hcan Hsub ltac:(lia) ltac:(lia)) as [_ Hhi].
  apply andb_true_iff. rewrite !Z.leb_le. lia.
Qed.

End Binary64Facts.

(** * Properties of the coverage checker *)

Import IntegerBounds.
Import Binary64Facts.
Open Scope Z_scope.

Lemma canonical_ascending (l : list range) :
  canonical l -> StronglySorted minLt l.
Proof.
  induction l as [|b tl IH]; intros Hcan; [constructor|].
  constructor; [eapply IH, canonical_tail; eassumption|].
  pose proof (canonical_head_wellFormed Hcan) as Hb.
  eapply Forall_impl; [|apply canonical_tail_above; eassumption].
  unfold minLt. simpl. intros; lia.
Qed.

(** C1, as the code has it, for whole-number bounds with every candidate
    [max] from [-2^53] up to [2^53 - 1], where [max + 1] is computed
    exactly: a [true] answer always means that the union of the candidates
    contains every whole number of the target range; and when that union
    contains the target range and leaves no whole number uncovered between
    the lowest candidate [min] and [desired.min], the answer is [true]. *)
Theorem isRangeFullyCovered_union (desired : range) (ranges : list range) :
  wellFormed desired ->
  Forall wellFormed ranges ->
  Forall Binary64.maxExact ranges ->
  (Binary64.isRangeFullyCovered desired ranges = true ->
   unionContains desired ranges) /\
  ((forall r x, In r ranges -> min r <= x < min desired ->
                inUnion x ranges = true) ->
   unionContains desired ranges ->
   Binary64.isRangeFullyCovered desired ranges = true).
Proof.
  intros Hd Hwf Hex. rewrite (isRangeFullyCovered_agrees desired Hex). split.
  - now apply isRangeFullyCovered_sound.
  - now apply covered_when_no_gap_below.
Qed.

Lemma isRangeFullyCovered_union_witness :
  Binary64.isRangeFullyCovered (mkRange 1 10)
    [mkRange (-10) (-5); mkRange (-4) 20] = true.
Proof.
  apply (isRangeFullyCovered_union (desired := mkRange 1 10)
           (ranges := [mkRange (-10) (-5); mkRange (-4) 20])).
  - unfold wellFormed; simpl; lia.
  - repeat constructor; unfold wellFormed; simpl; lia.
  - repeat constructor; unfold Binary64.maxExact; simpl; lia.
  - intros r x Hr Hx. apply inUnion_iff.
    assert (Hlo : -10 <= x < 1)
      by (destruct Hr as [<-|[<-|[]]]; simpl in Hx; lia).
    destruct (Z_le_gt_dec x (-5)).
    + exists (mkRange (-10) (-5)). simpl. split; [auto | lia].
    + exists (mkRange (-4) 20). simpl. split; [auto | lia].
  - intros x Hx. apply inRange_iff in Hx. simpl in Hx.
    apply inUnion_iff. exists (mkRange (-4) 20). simpl. split; [auto | lia].
Defined.

(** C1 as stated fails twice.  With fractional bounds the ranges
    [[1, 3/2]] and [[2, 3]] are merged although [7/4] lies in neither;
    with whole-number bounds the candidates [[-10, -5]] and [[0, 20]]
    contain every value of [[1, 10]] and the answer is [false]. *)
Lemma decidesCoverage_fails : ~ decidesCoverage Q /\ ~ decidesCoverage Z.
Proof.
  split; intros Hclaim.
  - destruct (Hclaim (mkRange 1%Q 3%Q) [mkRange 1%Q (3#2)%Q; mkRange 2%Q 3%Q])
      as [Hcov _].
    + reflexivity.
    + repeat constructor.
    + specialize (Hcov eq_refl (7#4)%Q eq_refl). discriminate.
  - destruct (Hclaim (mkRange 1 10) [mkRange (-10) (-5); mkRange 0 20])
      as [_ Hcov].
    + reflexivity.
    + repeat constructor.
    + assert (Hfalse : isRangeFullyCovered (mkRange 1 10)
                         [mkRange (-10) (-5); mkRange 0 20] = false)
        by reflexivity.
      rewrite Hcov in Hfalse; [discriminate|].
      intros x Hx. apply inRange_iff in Hx. simpl in Hx.
      apply inUnion_iff. exists (mkRange 0 20). simpl. split; [auto | lia].
Qed.

(** Why the bound on [max]: with candidates [[0, 2^53 + 2]] and
    [[2^53 + 4, 2^53 + 10]] the sum [2^53 + 2 + 1] rounds to [2^53 + 4],
    the two ranges are merged and the target [[0, 2^53 + 10]] is reported
    covered although [2^53 + 3] lies in no candidate; exact arithmetic
    keeps the two ranges apart. *)
Lemma rounding_merges_across_a_gap :
  Binary64.fl (2 ^ 53 + 2 + 1) = 2 ^ 53 + 4 /\
  Binary64.isRangeFullyCovered (mkRange 0 (2 ^ 53 + 10))
    [mkRange 0 (2 ^ 53 + 2); mkRange (2 ^ 53 + 4) (2 ^ 53 + 10)] = true /\
  inUnion (2 ^ 53 + 3)
    [mkRange 0 (2 ^ 53 + 2); mkRange (2 ^ 53 + 4) (2 ^ 53 + 10)] = false /\
  isRangeFullyCovered (mkRange 0 (2 ^ 53 + 10))
    [mkRange 0 (2 ^ 53 + 2); mkRange (2 ^ 53 + 4) (2 ^ 53 + 10)] = false.
Proof. repeat split; vm_compute; reflexivity. Qed.

(** C2: the dual-axis evaluator is the conjunction of the two per-axis
    checks, one on the cameras' distance ranges and one on their light
    ranges, whatever the numeric carrier. *)
Theorem canCamerasCoverDesiredRange_conjunction (A : Type) (N : Number A)
    (desiredDistance desiredLight : NumericRange A)
    (hardwareCameras : list (CameraSpec A)) :
  canCamerasCoverDesiredRange desiredDistance desiredLight hardwareCameras =
    isRangeFullyCovered desiredDistance (map (@distance A) hardwareCameras)
    && isRangeFullyCovered desiredLight (map (@light A) hardwareCameras).
Proof. reflexivity. Qed.

(** C3, as the code has it: touching whole-number ranges [[a, b]] and
    [[b + 1, c]] cover [[a, c]] whenever [b + 1] is a value a [number]
    holds; with one value skipped, [[a, b]] and [[b + 2, c]] do not cover
    [[a, c]] for every [b] from [-2^53] up to [2^53 - 1], where [b + 1]
    is computed exactly. *)
Theorem adjacency_boundary (a b c : Z) :
  (a <= b -> b + 1 <= c -> Binary64.representable (b + 1) ->
   Binary64.isRangeFullyCovered (mkRange a c)
     [mkRange a b; mkRange (b + 1) c] = true) /\
  (a <= b -> b + 2 <= c -> - 2 ^ 53 <= b < 2 ^ 53 ->
   Binary64.isRangeFullyCovered (mkRange a c)
     [mkRange a b; mkRange (b + 2) c] = false).
Proof.
  split; intros Hab Hbc Hb;
    match goal with
    | |- Binary64.isRangeFullyCovered ?d ?l = ?v =>
        change (Binary64.coverageWalk d (min d) (Binary64.mergeRanges l) = v)
    end;
    rewrite mergeRanges64_unfold, sortByMin_agrees, sortByMin_ascending
      by (repeat constructor; unfold minLe; simpl; lia);
    rewrite mergeLoop64_cons; cbn [min max].
  - unfold Binary64.representable in Hb. rewrite Hb, Z.leb_refl.
    change (Binary64.mergeLoop [] (mkRange a (Z.max b c)) [])
      with [mkRange a (Z.max b c)].
    rewrite coverageWalk64_cons. cbn [min max].
    rewrite Z.ltb_irrefl.
    destruct (Z.leb_spec c (Z.max b c)); [reflexivity | lia].
  - rewrite (fl_small (n := b + 1)) by lia.
    destruct (Z.leb_spec (b + 2) (b + 1)); [lia|].
    change (Binary64.mergeLoop ([] ++ [mkRange a b]) (mkRange (b + 2) c) [])
      with [mkRange a b; mkRange (b + 2) c].
    rewrite !coverageWalk64_cons. cbn [min max].
    rewrite Z.ltb_irrefl, (fl_small (n := b + 1)) by lia.
    destruct (Z.leb_spec c b); [lia|].
    destruct (Z.ltb_spec (b + 1) (b + 2)); [reflexivity | lia].
Qed.

Lemma adjacency_boundary_witness :
  Binary64.isRangeFullyCovered (mkRange 1 6)
    [mkRange 1 3; mkRange (3 + 1) 6] = true /\
  Binary64.isRangeFullyCovered (mkRange 1 6)
    [mkRange 1 3; mkRange (3 + 2) 6] = false.
Proof.
  split.
  - apply (proj1 (adjacency_boundary 1 3 6)); try lia. reflexivity.
  - apply (proj2 (adjacency_boundary 1 3 6)); lia.
Defined.

(** C3 as stated fails for large whole numbers, all of them values a
    [number] holds: with [a = 0], [b = 2^53 + 2] and [c = 2^53 + 10] the
    sum [b + 1] rounds to [2^53 + 4 = b + 2], so [[a, b]] and
    [[b + 2, c]] are merged and the answer is [true] although [b + 1] is
    skipped. *)
Lemma adjacency_gap_missed_beyond_2_53 :
  ~ (forall a b c : Z,
       Binary64.representable a -> Binary64.representable b ->
       Binary64.representable (b + 2) -> Binary64.representable c ->
       a <= b -> b + 2 <= c ->
       Binary64.isRangeFullyCovered (mkRange a c)
         [mkRange a b; mkRange (b + 2) c] = false).
Proof.
  intros Hclaim.
  specialize (Hclaim 0 (2 ^ 53 + 2) (2 ^ 53 + 10)).
  assert (Htrue : Binary64.isRangeFullyCovered (mkRange 0 (2 ^ 53 + 10))
                    [mkRange 0 (2 ^ 53 + 2);
                     mkRange (2 ^ 53 + 2 + 2) (2 ^ 53 + 10)] = true)
    by (vm_compute; reflexivity).
  rewrite Hclaim in Htrue; [discriminate | | | | | lia | lia];
    vm_compute; reflexivity.
Qed.

(** C4: on a non-empty list of well-formed whole-number ranges the merge
    pass yields blocks strictly ascending by [min], each well formed,
    each starting beyond [max + 1] of the block before it. *)
Theorem mergeRanges_blocks (ranges : list range) :
  ranges <> [] ->
  Forall wellFormed ranges ->
  StronglySorted minLt (mergeRanges ranges) /\
  Forall wellFormed (mergeRanges ranges) /\
  Sorted apart (mergeRanges ranges).
Proof.
  intros Hne Hwf.
  destruct (mergeRanges_canonical Hne Hwf) as (b & tl & -> & Hcan).
  split; [now apply canonical_ascending | exact Hcan].
Qed.

Lemma mergeRanges_blocks_witness :
  StronglySorted minLt (mergeRanges [mkRange 6 10; mkRange 1 4; mkRange 3 4]) /\
  Forall wellFormed (mergeRanges [mkRange 6 10; mkRange 1 4; mkRange 3 4]) /\
  Sorted apart (mergeRanges [mkRange 6 10; mkRange 1 4; mkRange 3 4]).
Proof.
  apply mergeRanges_blocks.
  - discriminate.
  - repeat constructor; unfold wellFormed; simpl; lia.
Defined.

Lemma isRangeFullyCovered_Permutation (desired : range) (l1 l2 : list range) :
  Forall wellFormed l1 -> Permutation l1 l2 ->
  isRangeFullyCovered desired l1 = isRangeFullyCovered desired l2.
Proof.
  intros Hwf HP. unfold isRangeFullyCovered.
  rewrite (mergeRanges_perm Hwf HP).
  destruct l1 as [|a1 l1], l2 as [|a2 l2]; try reflexivity.
  apply Permutation_nil in HP. discriminate.
Qed.

(** C5: with well-formed whole-number candidates the answer does not
    depend on the order in which the candidates are given. *)
Theorem isRangeFullyCovered_perm (desired : range) (l1 l2 : list range) :
  Forall wellFormed l1 ->
  Permutation l1 l2 ->
  isRangeFullyCovered desired l1 = isRangeFullyCovered desired l2.
Proof. apply isRangeFullyCovered_Permutation. Qed.

Lemma isRangeFullyCovered_perm_witness :
  isRangeFullyCovered (mkRange 1 10) [mkRange 6 10; mkRange 1 5] =
  isRangeFullyCovered (mkRange 1 10) [mkRange 1 5; mkRange 6 10].
Proof.
  apply isRangeFullyCovered_perm.
  - repeat constructor; unfold wellFormed; simpl; lia.
  - apply perm_swap.
Defined.

(** C6 does not hold of the code: [[0, 20]] alone covers [[1, 10]], and
    with [[-10, -5]] added, in either position, the answer turns [false].
    The walk moves [coverageStart] back to [-4] after the block
    [[-10, -5]], and then sees the block [[0, 20]] as starting after a gap. *)
Theorem added_range_below_target_loses_coverage :
  isRangeFullyCovered (mkRange 1 10) [mkRange 0 20] = true /\
  isRangeFullyCovered (mkRange 1 10) [mkRange 0 20; mkRange (-10) (-5)] = false /\
  isRangeFullyCovered (mkRange 1 10) [mkRange (-10) (-5); mkRange 0 20] = false /\
  mergeRanges [mkRange 0 20; mkRange (-10) (-5)]
    = [mkRange (-10) (-5); mkRange 0 20] /\
  unionContains (mkRange 1 10) [mkRange 0 20; mkRange (-10) (-5)].
Proof.
  repeat split.
  intros x Hx. apply inRange_iff in Hx. simpl in Hx.
  apply inUnion_iff. exists (mkRange 0 20). simpl. split; [auto | lia].
Qed.

(** C7: the merge pass is idempotent on its own output. *)
Theorem mergeRanges_idempotent (ranges : list range) :
  ranges <> [] ->
  Forall wellFormed ranges ->
  mergeRanges (mergeRanges ranges) = mergeRanges ranges.
Proof.
  intros Hne Hwf.
  destruct (mergeRanges_canonical Hne Hwf) as (b & tl & E & Hcan).
  rewrite E.
  destruct (@mergeRanges_canonical (b :: tl)) as (b' & tl' & E' & Hcan');
    [discriminate | apply Hcan |].
  rewrite E'. apply canonical_unique; try assumption.
  intros x. rewrite <- E'. apply mergeRanges_union, Hcan.
Qed.

Lemma mergeRanges_idempotent_witness :
  mergeRanges (mergeRanges [mkRange 6 10; mkRange 1 4; mkRange 3 4]) =
  mergeRanges [mkRange 6 10; mkRange 1 4; mkRange 3 4].
Proof.
  apply mergeRanges_idempotent.
  - discriminate.
  - repeat constructor; unfold wellFormed; simpl; lia.
Defined.

(** C8: with no candidate the answer is [false] for every target, well
    formed or not, and so is the dual-axis answer with no camera. *)
Theorem empty_input_law (A : Type) (N : Number A) :
  (forall desired : NumericRange A, isRangeFullyCovered desired [] = false) /\
  (forall desiredDistance desiredLight : NumericRange A,
     canCamerasCoverDesiredRange desiredDistance desiredLight [] = false).
Proof. split; reflexivity. Qed.

(** C9: a single candidate [c] covers a target exactly when it spans
    both bounds of the target; neither range needs to be well formed. *)
Theorem single_candidate (desired c : range) :
  isRangeFullyCovered desired [c] = true <->
  min c <= min desired /\ max c >= max desired.
Proof.
  unfold isRangeFullyCovered. rewrite mergeRanges_unfold.
  cbn [sortByMin insertByMin mergeLoop app].
  rewrite coverageWalk_cons. cbn [coverageWalk].
  destruct (Z.ltb_spec (min desired) (min c)),
           (Z.leb_spec (max desired) (max c));
    split; try discriminate; try reflexivity; lia.
Qed.

(** C10, as the code has it: when every distance range and every light
    range of the cameras is well formed, the answer depends only on the
    collection of distance ranges and the collection of light ranges,
    each up to reordering, not on how they are paired into cameras. *)
Theorem pairing_irrelevant (desiredDistance desiredLight : range)
    (cameras1 cameras2 : list (CameraSpec Z)) :
  Forall wellFormed (map (@distance Z) cameras1) ->
  Forall wellFormed (map (@light Z) cameras1) ->
  Permutation (map (@distance Z) cameras1) (map (@distance Z) cameras2) ->
  Permutation (map (@light Z) cameras1) (map (@light Z) cameras2) ->
  canCamerasCoverDesiredRange desiredDistance desiredLight cameras1 =
  canCamerasCoverDesiredRange desiredDistance desiredLight cameras2.
Proof.
  intros Hd Hl Pd Pl. unfold canCamerasCoverDesiredRange.
  now rewrite (isRangeFullyCovered_Permutation desiredDistance Hd Pd),
              (isRangeFullyCovered_Permutation desiredLight Hl Pl).
Qed.

Lemma pairing_irrelevant_witness :
  canCamerasCoverDesiredRange (mkRange 1 10) (mkRange 10 50)
    [mkCamera (mkRange 6 10) (mkRange 30 50);
     mkCamera (mkRange 1 5) (mkRange 10 29)] =
  canCamerasCoverDesiredRange (mkRange 1 10) (mkRange 10 50)
    [mkCamera (mkRange 6 10) (mkRange 10 29);
     mkCamera (mkRange 1 5) (mkRange 30 50)].
Proof.
  apply pairing_irrelevant.
  - repeat constructor; unfold wellFormed; simpl; lia.
  - repeat constructor; unfold wellFormed; simpl; lia.
  - apply Permutation_refl.
  - apply perm_swap.
Defined.

(** C10 as stated fails once a light range is malformed: the cameras keep
    their distance ranges [[1, 5]] and [[6, 10]] and exchange the light
    ranges [[5, 2]] and [[5, 9]]; against the light target [[5, 9]] the
    first pairing answers [false], the second [true]. *)
Lemma pairing_matters_when_malformed :
  ~ (forall (desiredDistance desiredLight : range)
            (cameras1 cameras2 : list (CameraSpec Z)),
       map (@distance Z) cameras1 = map (@distance Z) cameras2 ->
       Permutation (map (@light Z) cameras1) (map (@light Z) cameras2) ->
       canCamerasCoverDesiredRange desiredDistance desiredLight cameras1 =
       canCamerasCoverDesiredRange desiredDistance desiredLight cameras2).
Proof.
  intros Hclaim.
  specialize (Hclaim (mkRange 1 10) (mkRange 5 9)
    [mkCamera (mkRange 1 5) (mkRange 5 2);
     mkCamera (mkRange 6 10) (mkRange 5 9)]
    [mkCamera (mkRange 1 5) (mkRange 5 9); mkCamera (mkRange 6 10) (mkRange 5 2)]
    eq_refl (perm_swap _ _ _)).
  discriminate.
Qed.

(** * Further properties of the code *)

(** ** Sizes, for any numeric carrier *)

Section AnyCarrier.
Context {A : Type} `{Number A}.

Lemma insertByMin_length (a : NumericRange A) (l : list (NumericRange A)) :
  List.length (insertByMin a l) = S (List.length l).
Proof.
  induction l as [|b l IH]; [reflexivity|].
  simpl. destruct (num_nonpos (compareMin a b)); simpl; congruence.
Qed.

Lemma sortByMin_length (l : list (NumericRange A)) :
  List.length (sortByMin l) = List.length l.
Proof.
  induction l as [|a l IH]; [reflexivity|].
  simpl. rewrite insertByMin_length. congruence.
Qed.

Lemma mergeLoop_length (rest : list (NumericRange A)) :
  forall (merged : list (NumericRange A)) (current : NumericRange A),
    (List.length merged + 1 <= List.length (mergeLoop merged current rest)
     <= List.length merged + 1 + List.length rest)%nat.
Proof.
  induction rest as [|next rest IH]; intros merged current; simpl.
  - rewrite length_app. simpl. lia.
  - destruct (num_leb (min next) (num_add (max current) num_one)).
    + specialize (IH merged
        (mkRange (min current) (num_max (max current) (max next)))). lia.
    + specialize (IH (merged ++ [current]) (mkRange (min next) (max next))).
      rewrite length_app in IH. simpl in IH. lia.
Qed.

(** X1: on a non-empty candidate list the merge pass yields at least one
    block and never more blocks than there are candidates; this holds for
    every carrier and does not need the candidates to be well formed. *)
Theorem mergeRanges_length (availableRanges : list (NumericRange A)) :
  availableRanges <> [] ->
  (1 <= List.length (mergeRanges availableRanges)
   <= List.length availableRanges)%nat.
Proof.
  intros Hne. unfold mergeRanges.
  pose proof (sortByMin_length availableRanges) as Hlen.
  destruct (sortByMin availableRanges) as [|first rest].
  - destruct availableRanges; [congruence | discriminate].
  - pose proof (mergeLoop_length rest [] (mkRange (min first) (max first))) as Hm.
    simpl in Hm, Hlen. lia.
Qed.

End AnyCarrier.

Lemma mergeRanges_length_witness :
  (1 <= List.length
          (mergeRanges [mkRange 6%Z 10%Z; mkRange 1%Z 4%Z; mkRange 3%Z 4%Z])
   <= List.length [mkRange 6%Z 10%Z; mkRange 1%Z 4%Z; mkRange 3%Z 4%Z])%nat.
Proof. apply mergeRanges_length. discriminate. Defined.

(** ** The sorted copy *)

(** X2: the sorted copy holds exactly the candidates, each as often as in
    the input, in ascending order of [min]. *)
Theorem sortByMin_sorted_permutation (l : list range) :
  Permutation l (sortByMin l) /\ StronglySorted minLe (sortByMin l).
Proof. split; [apply sortByMin_perm | apply sortByMin_sorted]. Qed.

Lemma insertByMin_filter (k : Z) (a : range) (l : list range) :
  filter (fun r => min r =? k) (insertByMin a l) =
  filter (fun r => min r =? k) (a :: l).
Proof.
  induction l as [|b l IH]; [reflexivity|].
  rewrite insertByMin_cons. destruct (Z.leb_spec (min a) (min b)); [reflexivity|].
  simpl in *. rewrite IH.
  destruct (Z.eqb_spec (min a) k), (Z.eqb_spec (min b) k); try reflexivity.
  lia.
Qed.

(** X3: sorting is stable: candidates with the same [min] appear in the
    sorted copy in the order they had in the input. *)
Theorem sortByMin_stable (k : Z) (l : list range) :
  filter (fun r => min r =? k) (sortByMin l) = filter (fun r => min r =? k) l.
Proof.
  induction l as [|a l IH]; [reflexivity|].
  simpl sortByMin. rewrite insertByMin_filter. simpl. now rewrite IH.
Qed.

(** ** Where the blocks come from *)

Lemma boundsAmong_merge (candidates : list range) (current next : range) :
  boundsAmong candidates current -> In next candidates ->
  boundsAmong candidates
    (mkRange (min current) (Z.max (max current) (max next))).
Proof.
  intros [Hmin [r [Hr Hmax]]] Hn. split; [exact Hmin|]. simpl.
  destruct (Z.max_spec (max current) (max next)) as [[_ ->]|[_ ->]].
  - exists next. auto.
  - exists r. auto.
Qed.

Lemma boundsAmong_self (candidates : list range) (r : range) :
  In r candidates -> boundsAmong candidates r.
Proof. intros Hr. split; exists r; auto. Qed.

Lemma mergeLoop_boundsAmong (candidates rest : list range) :
  forall (merged : list range) (current : range),
    Forall (boundsAmong candidates) merged ->
    boundsAmong candidates current ->
    incl rest candidates ->
    Forall (boundsAmong candidates) (mergeLoop merged current rest).
Proof.
  induction rest as [|next rest IH]; intros merged current Hm Hc Hincl.
  - simpl. apply Forall_app. split; [assumption | now constructor].
  - rewrite mergeLoop_cons.
    assert (Hn : In next candidates) by (apply Hincl; now left).
    assert (Hrest : incl rest candidates)
      by (intros r Hr; apply Hincl; now right).
    destruct (min next <=? max current + 1).
    + apply IH; try assumption. now apply boundsAmong_merge.
    + apply IH; try assumption.
      * apply Forall_app. split; [assumption | now constructor].
      * now apply boundsAmong_self.
Qed.

Lemma mergeRanges_boundsAmong (l : list range) :
  Forall (boundsAmong l) (mergeRanges l).
Proof.
  rewrite mergeRanges_unfold.
  pose proof (sortByMin_perm l) as HP.
  destruct (sortByMin l) as [|first rest]; [constructor|].
  assert (Hin : incl (first :: rest) l).
  { intros r Hr. eapply Permutation_in; [apply Permutation_sym|]; eassumption. }
  apply mergeLoop_boundsAmong.
  - constructor.
  - apply boundsAmong_self, Hin. now left.
  - intros r Hr. apply Hin. now right.
Qed.

(** X4: the merge pass invents no bound: the [min] of every block is the
    [min] of some candidate and its [max] is the [max] of some candidate,
    also when candidates are malformed. *)
Theorem mergeRanges_bounds_from_candidates (l : list range) (b : range) :
  In b (mergeRanges l) ->
  (exists r, In r l /\ min b = min r) /\ (exists r, In r l /\ max b = max r).
Proof.
  intros Hb. pose proof (mergeRanges_boundsAmong l) as HF.
  rewrite Forall_forall in HF. exact (HF b Hb).
Qed.

Lemma mergeRanges_bounds_from_candidates_witness :
  (exists r, In r [mkRange 3 9; mkRange 1 4] /\ min (mkRange 1 9) = min r) /\
  (exists r, In r [mkRange 3 9; mkRange 1 4] /\ max (mkRange 1 9) = max r).
Proof.
  apply mergeRanges_bounds_from_candidates. simpl. now left.
Defined.

(** ** The merged blocks and the union of the candidates *)

(** X5: for whole-number bounds with every candidate [max] from [-2^53]
    up to [2^53 - 1] the merge pass neither loses nor adds a covered
    value: a value lies in some merged block exactly when it lies in some
    candidate. *)
Theorem mergeRanges_keeps_union (l : list range) (x : Z) :
  Forall wellFormed l ->
  Forall Binary64.maxExact l ->
  inUnion x (Binary64.mergeRanges l) = inUnion x l.
Proof.
  intros Hwf Hex. rewrite (mergeRanges_agrees Hex).
  now apply mergeRanges_union.
Qed.

Lemma mergeRanges_keeps_union_witness :
  inUnion 5 (Binary64.mergeRanges [mkRange 6 10; mkRange 1 4]) =
  inUnion 5 [mkRange 6 10; mkRange 1 4].
Proof.
  apply mergeRanges_keeps_union.
  - repeat constructor; unfold wellFormed; simpl; lia.
  - repeat constructor; unfold Binary64.maxExact; simpl; lia.
Defined.

Lemma wellFormed_nonempty_union (a : range) (l : list range) :
  wellFormed a -> inUnion (min a) (a :: l) = true.
Proof. unfold wellFormed. intros Ha. apply inUnion_cons. lia. Qed.

Lemma mergeRanges_same_union (l1 l2 : list range) :
  Forall wellFormed l1 -> Forall wellFormed l2 ->
  (forall x, inUnion x l1 = inUnion x l2) ->
  mergeRanges l1 = mergeRanges l2.
Proof.
  intros H1 H2 Heq.
  destruct l1 as [|a1 l1], l2 as [|a2 l2]; try reflexivity.
  - inversion H2 as [|? ? Ha _]; subst.
    pose proof (wellFormed_nonempty_union l2 Ha) as Hx.
    rewrite <- Heq in Hx. discriminate.
  - inversion H1 as [|? ? Ha _]; subst.
    pose proof (wellFormed_nonempty_union l1 Ha) as Hx.
    rewrite Heq in Hx. discriminate.
  - destruct (@mergeRanges_canonical (a1 :: l1)) as (b1 & t1 & E1 & Hc1);
      [discriminate | assumption |].
    destruct (@mergeRanges_canonical (a2 :: l2)) as (b2 & t2 & E2 & Hc2);
      [discriminate | assumption |].
    rewrite E1, E2. apply canonical_unique; try assumption.
    intros x. rewrite <- E1, <- E2, !mergeRanges_union by assumption.
    apply Heq.
Qed.

Lemma isRangeFullyCovered_same_union (desired : range) (l1 l2 : list range) :
  Forall wellFormed l1 -> Forall wellFormed l2 ->
  (forall x, inUnion x l1 = inUnion x l2) ->
  isRangeFullyCovered desired l1 = isRangeFullyCovered desired l2.
Proof.
  intros H1 H2 Heq. unfold isRangeFullyCovered.
  rewrite (mergeRanges_same_union H1 H2 Heq).
  destruct l1 as [|a1 l1], l2 as [|a2 l2]; try reflexivity.
  inversion H2 as [|? ? Ha _]; subst.
  pose proof (wellFormed_nonempty_union l2 Ha) as Hx.
  rewrite <- Heq in Hx. discriminate.
Qed.

(** X6: the checker sees well-formed whole-number candidates only through
    the set of values they cover: two candidate lists covering the same
    values give the same merged blocks and the same answer for every
    target. *)
Theorem same_union_same_answer (l1 l2 : list range) :
  Forall wellFormed l1 -> Forall wellFormed l2 ->
  (forall x, inUnion x l1 = inUnion x l2) ->
  mergeRanges l1 = mergeRanges l2 /\
  forall desired, isRangeFullyCovered desired l1 = isRangeFullyCovered desired l2.
Proof.
  intros H1 H2 Heq. split.
  - now apply mergeRanges_same_union.
  - intros desired. now apply isRangeFullyCovered_same_union.
Qed.

Lemma same_union_same_answer_witness :
  mergeRanges [mkRange 1 5; mkRange 3 10] = mergeRanges [mkRange 6 10; mkRange 1 5]
  /\ forall desired,
       isRangeFullyCovered desired [mkRange 1 5; mkRange 3 10] =
       isRangeFullyCovered desired [mkRange 6 10; mkRange 1 5].
Proof.
  apply same_union_same_answer.
  - repeat constructor; unfold wellFormed; simpl; lia.
  - repeat constructor; unfold wellFormed; simpl; lia.
  - intros x. apply eq_true_iff_eq. rewrite !inUnion_cons. simpl.
    assert (inUnion x [] = true <-> False) by (simpl; split; [discriminate|tauto]).
    lia.
Defined.

(** X7: a candidate lying inside another candidate, a duplicate among
    them, changes nothing. *)
Theorem subsumed_candidate_irrelevant (desired c c' : range) (l : list range) :
  Forall wellFormed (c :: l) ->
  In c' l -> min c' <= min c -> max c <= max c' ->
  isRangeFullyCovered desired (c :: l) = isRangeFullyCovered desired l.
Proof.
  intros Hwf Hc' Hlo Hhi. inversion Hwf as [|? ? Hc Hl]; subst.
  apply isRangeFullyCovered_same_union; try assumption.
  intros x. apply eq_true_iff_eq. rewrite inUnion_cons. split; [|tauto].
  intros [Hx|Hx]; [|assumption].
  apply inUnion_iff. exists c'. split; [assumption | lia].
Qed.

Lemma subsumed_candidate_irrelevant_witness :
  isRangeFullyCovered (mkRange 1 10) [mkRange 2 4; mkRange 6 10; mkRange 1 5] =
  isRangeFullyCovered (mkRange 1 10) [mkRange 6 10; mkRange 1 5].
Proof.
  apply (@subsumed_candidate_irrelevant _ _ (mkRange 1 5)).
  - repeat constructor; unfold wellFormed; simpl; lia.
  - simpl. auto.
  - simpl. lia.
  - simpl. lia.
Defined.

Lemma mergeRanges_fixes_canonical (l : list range) :
  canonical l -> mergeRanges l = l.
Proof.
  intros Hcan. destruct l as [|b tl]; [reflexivity|].
  destruct (@mergeRanges_canonical (b :: tl)) as (b' & tl' & E & Hcan');
    [discriminate | apply Hcan |].
  rewrite E. apply canonical_unique; try assumption.
  intros x. rewrite <- E. apply mergeRanges_union, Hcan.
Qed.

(** X8: for whole-number bounds with every [max] from [-2^53] up to
    [2^53 - 1] the merge pass leaves unchanged every list of well-formed
    blocks in which each block starts beyond [max + 1] of the block before
    it, whether or not the list came out of a merge. *)
Theorem mergeRanges_canonical_fixed (l : list range) :
  Forall wellFormed l -> Sorted apart l ->
  Forall Binary64.maxExact l ->
  Binary64.mergeRanges l = l.
Proof.
  intros Hwf Hs Hex. rewrite (mergeRanges_agrees Hex).
  apply mergeRanges_fixes_canonical. now split.
Qed.

Lemma mergeRanges_canonical_fixed_witness :
  Binary64.mergeRanges [mkRange 1 4; mkRange 6 10] =
  [mkRange 1 4; mkRange 6 10].
Proof.
  apply mergeRanges_canonical_fixed.
  - repeat constructor; unfold wellFormed; simpl; lia.
  - repeat constructor; unfold apart; simpl; lia.
  - repeat constructor; unfold Binary64.maxExact; simpl; lia.
Defined.

(** ** What the walk accepts *)

(** X9: with well-formed whole-number candidates only the lowest merged
    block is ever accepted: the answer is [true] exactly when that block
    starts at or below [desired.min] and ends at or beyond [desired.max];
    the target itself need not be well formed. *)
Theorem only_lowest_block_counts (desired : range) (l : list range) :
  Forall wellFormed l ->
  isRangeFullyCovered desired l =
    match mergeRanges l with
    | [] => false
    | b :: _ => (min b <=? min desired) && (max desired <=? max b)
    end.
Proof. apply isRangeFullyCovered_value. Qed.

Lemma only_lowest_block_counts_witness :
  isRangeFullyCovered (mkRange 6 9) [mkRange 6 10; mkRange 1 4] =
    match mergeRanges [mkRange 6 10; mkRange 1 4] with
    | [] => false
    | b :: _ => (min b <=? min (mkRange 6 9)) && (max (mkRange 6 9) <=? max b)
    end.
Proof.
  apply only_lowest_block_counts.
  repeat constructor; unfold wellFormed; simpl; lia.
Defined.

(** X10: a target inside a covered target is covered: if the answer is
    [true] for [desired], it is [true] for every target whose bounds lie
    between the bounds of [desired]. *)
Theorem narrower_target_stays_covered (desired desired' : range)
    (l : list range) :
  Forall wellFormed l ->
  min desired <= min desired' -> max desired' <= max desired ->
  isRangeFullyCovered desired l = true ->
  isRangeFullyCovered desired' l = true.
Proof.
  intros Hwf Hlo Hhi. rewrite !isRangeFullyCovered_value by assumption.
  destruct (mergeRanges l) as [|b tl]; [discriminate|].
  rewrite !andb_true_iff, !Z.leb_le. lia.
Qed.

Lemma narrower_target_stays_covered_witness :
  isRangeFullyCovered (mkRange 3 8) [mkRange 6 10; mkRange 1 5] = true.
Proof.
  apply (@narrower_target_stays_covered (mkRange 1 10)).
  - repeat constructor; unfold wellFormed; simpl; lia.
  - simpl. lia.
  - simpl. lia.
  - reflexivity.
Defined.

Lemma covered_by_spanning_block (desired : range) (l : list range)
    (lo hi : Z) :
  l <> [] -> Forall wellFormed l ->
  (forall r, In r l -> min desired <= max r + 1) ->
  lo <= hi -> lo <= min desired -> max desired <= hi ->
  (forall x, lo <= x <= hi -> inUnion x l = true) ->
  isRangeFullyCovered desired l = true.
Proof.
  intros Hne Hwf Hreach Hlh Hlo Hhi Hall.
  destruct (@isRangeFullyCovered_lowest_block desired l)
    as (b & tl & E & Hcan & ->); [assumption | assumption |].
  destruct (lowest_block_candidate Hwf E Hcan) as (r & Hr & Hrmin & Hrmax).
  specialize (Hreach r Hr).
  assert (Hsub : forall x, lo <= x <= hi -> inUnion x (b :: tl) = true).
  { intros x Hx. rewrite <- E, mergeRanges_union by assumption. now apply Hall. }
  destruct (canonical_absorbs Hcan Hsub Hlh ltac:(lia)) as [Hblo Hbhi].
  apply andb_true_iff. rewrite !Z.leb_le. lia.
Qed.

(** X11: over-coverage is coverage, as far as the walk allows: when some
    well-formed candidate spans the target and no candidate ends more than
    one unit below [desired.min], the answer is [true]. *)
Theorem spanning_candidate_covers (desired c : range) (l : list range) :
  Forall wellFormed l ->
  In c l -> min c <= min desired -> max desired <= max c ->
  (forall r, In r l -> min desired <= max r + 1) ->
  isRangeFullyCovered desired l = true.
Proof.
  intros Hwf Hc Hlo Hhi Hreach.
  assert (Hcw : wellFormed c) by (rewrite Forall_forall in Hwf; auto).
  apply (@covered_by_spanning_block desired l (min c) (max c));
    try assumption.
  - intros ->. contradiction.
  - intros x Hx. apply inUnion_iff. exists c. auto.
Qed.

Lemma spanning_candidate_covers_witness :
  isRangeFullyCovered (mkRange 1 10) [mkRange 12 15; mkRange 0 20] = true.
Proof.
  apply (@spanning_candidate_covers _ (mkRange 0 20)).
  - repeat constructor; unfold wellFormed; simpl; lia.
  - simpl. auto.
  - simpl. lia.
  - simpl. lia.
  - intros r [<-|[<-|[]]]; simpl; lia.
Defined.

(** X12: monotonicity, as far as the code has it: adding, at any position,
    a well-formed candidate that does not end more than one unit below
    [desired.min] never turns a [true] answer into [false]. *)
Theorem adding_reaching_candidate_keeps_coverage (desired x : range)
    (l l' : list range) :
  Forall wellFormed l -> wellFormed x ->
  min desired <= max x + 1 ->
  Permutation l' (x :: l) ->
  isRangeFullyCovered desired l = true ->
  isRangeFullyCovered desired l' = true.
Proof.
  intros Hwf Hx Hreach HP Hcov.
  assert (Hwf' : Forall wellFormed (x :: l)) by now constructor.
  rewrite (@isRangeFullyCovered_Permutation desired l' (x :: l));
    [|eapply Permutation_Forall; [apply Permutation_sym|]; eassumption
     |assumption].
  destruct l as [|a l]; [discriminate|].
  destruct (@isRangeFullyCovered_lowest_block desired (a :: l))
    as (b & tl & E & Hcan & Hval); [discriminate | assumption |].
  rewrite Hval in Hcov. apply andb_true_iff in Hcov.
  rewrite !Z.leb_le in Hcov.
  pose proof (canonical_head_wellFormed Hcan) as Hb.
  destruct (@isRangeFullyCovered_lowest_block desired (x :: a :: l))
    as (b' & tl' & E' & Hcan' & ->); [discriminate | assumption |].
  pose proof (canonical_head_wellFormed Hcan') as Hb'.
  assert (Hsub : forall y, min b <= y <= max b ->
                           inUnion y (b' :: tl') = true).
  { intros y Hy. rewrite <- E', mergeRanges_union by assumption.
    apply inUnion_cons. right.
    rewrite <- mergeRanges_union, E by assumption.
    apply inUnion_cons. now left. }
  assert (Htouch : min b <= max b' + 1).
  { destruct (lowest_block_candidate Hwf' E' Hcan')
      as (r & [<-|Hr] & Hrmin & Hrmax).
    - lia.
    - assert (Hin : inUnion (min r) (b :: tl) = true).
      { rewrite <- E, mergeRanges_union by assumption.
        rewrite Forall_forall in Hwf. pose proof (Hwf r Hr) as Hrw.
        unfold wellFormed in Hrw.
        apply inUnion_iff. exists r. split; [assumption | lia]. }
      pose proof (canonical_lower _ Hcan Hin). lia. }
  destruct (canonical_absorbs Hcan' Hsub Hb Htouch).
  apply andb_true_iff. rewrite !Z.leb_le. lia.
Qed.

Lemma adding_reaching_candidate_keeps_coverage_witness :
  isRangeFullyCovered (mkRange 1 10) [mkRange 0 20; mkRange (-3) 0] = true.
Proof.
  apply (@adding_reaching_candidate_keeps_coverage _ (mkRange (-3) 0)
           [mkRange 0 20]).
  - repeat constructor; unfold wellFormed; simpl; lia.
  - unfold wellFormed; simpl; lia.
  - simpl. lia.
  - apply perm_swap.
  - reflexivity.
Defined.

(** ** What a [true] answer always needs *)

Lemma coverageWalk_true_block (desired : range) (blocks : list range) :
  forall coverageStart : Z,
    coverageWalk desired coverageStart blocks = true ->
    exists b, In b blocks /\ max desired <= max b.
Proof.
  induction blocks as [|b tl IH]; intros coverageStart Hw; [discriminate|].
  rewrite coverageWalk_cons in Hw.
  destruct (coverageStart <? min b); [discriminate|].
  destruct (Z.leb_spec (max desired) (max b)).
  - exists b. split; [now left | assumption].
  - destruct (IH _ Hw) as (b' & Hb' & Hmax). exists b'. split; [now right | assumption].
Qed.

Lemma coverageWalk_true_head (desired b : range) (tl : list range)
    (coverageStart : Z) :
  coverageWalk desired coverageStart (b :: tl) = true -> min b <= coverageStart.
Proof.
  rewrite coverageWalk_cons.
  destruct (Z.ltb_spec coverageStart (min b)); [discriminate | lia].
Qed.

(** X13: whatever the whole-number candidates, malformed ones included, a
    [true] answer needs a candidate that starts at or below [desired.min]
    and a candidate that ends at or beyond [desired.max]. *)
Theorem covered_needs_both_ends (desired : range) (l : list range) :
  isRangeFullyCovered desired l = true ->
  (exists r, In r l /\ min r <= min desired) /\
  (exists r, In r l /\ max desired <= max r).
Proof.
  intros Hcov. destruct l as [|a l]; [discriminate|].
  unfold isRangeFullyCovered in Hcov.
  pose proof (mergeRanges_boundsAmong (a :: l)) as HF.
  rewrite Forall_forall in HF.
  split.
  - destruct (mergeRanges (a :: l)) as [|b tl]; [discriminate|].
    pose proof (coverageWalk_true_head _ _ _ _ Hcov) as Hhead.
    destruct (HF b ltac:(now left)) as [(r & Hr & Hmin) _].
    exists r. split; [assumption | lia].
  - destruct (coverageWalk_true_block _ _ _ Hcov) as (b & Hb & Hmax).
    destruct (HF b Hb) as [_ (r & Hr & Hrmax)].
    exists r. split; [assumption | lia].
Qed.

Lemma covered_needs_both_ends_witness :
  (exists r, In r [mkRange 6 10; mkRange 1 5] /\ min r <= min (mkRange 1 10)) /\
  (exists r, In r [mkRange 6 10; mkRange 1 5] /\ max (mkRange 1 10) <= max r).
Proof. apply covered_needs_both_ends. reflexivity. Defined.

(** ** The dual-axis evaluator *)

(** X14: when the cameras' ranges are well formed with every [max] from
    [-2^53] up to [2^53 - 1] and the evaluator answers [true], every
    whole-number distance of the distance target is within some camera's
    distance range and every whole-number light level of the light target
    is within some camera's light range. *)
Theorem canCamerasCoverDesiredRange_sound (desiredDistance desiredLight : range)
    (hardwareCameras : list (CameraSpec Z)) :
  Forall wellFormed (map (@distance Z) hardwareCameras) ->
  Forall wellFormed (map (@light Z) hardwareCameras) ->
  Forall Binary64.maxExact (map (@distance Z) hardwareCameras) ->
  Forall Binary64.maxExact (map (@light Z) hardwareCameras) ->
  Binary64.canCamerasCoverDesiredRange desiredDistance desiredLight
    hardwareCameras = true ->
  unionContains desiredDistance (map (@distance Z) hardwareCameras) /\
  unionContains desiredLight (map (@light Z) hardwareCameras).
Proof.
  intros Hd Hl Hed Hel Hcov.
  rewrite (canCamerasCoverDesiredRange_agrees _ _ _ Hed Hel) in Hcov.
  unfold canCamerasCoverDesiredRange in Hcov.
  apply andb_true_iff in Hcov. destruct Hcov as [Hcd Hcl].
  split; now apply isRangeFullyCovered_sound.
Qed.

Lemma canCamerasCoverDesiredRange_sound_witness :
  unionContains (mkRange 1 10)
    (map (@distance Z) [mkCamera (mkRange 1 5) (mkRange 100 300);
                        mkCamera (mkRange 6 10) (mkRange 301 500)]) /\
  unionContains (mkRange 100 500)
    (map (@light Z) [mkCamera (mkRange 1 5) (mkRange 100 300);
                     mkCamera (mkRange 6 10) (mkRange 301 500)]).
Proof.
  apply canCamerasCoverDesiredRange_sound.
  - repeat constructor; unfold wellFormed; simpl; lia.
  - repeat constructor; unfold wellFormed; simpl; lia.
  - repeat constructor; unfold Binary64.maxExact; simpl; lia.
  - repeat constructor; unfold Binary64.maxExact; simpl; lia.
  - reflexivity.
Defined.

(** X15: the two axes are judged separately: a [true] answer, even for
    well-formed cameras, does not mean that every distance of the distance
    target together with every light level of the light target is handled
    by one and the same camera.  The first scenario of the test table
    answers [true], yet no camera handles distance 1 at light 500. *)
Theorem axes_are_judged_separately :
  ~ (forall (desiredDistance desiredLight : range)
            (hardwareCameras : list (CameraSpec Z)) (d l : Z),
       Forall wellFormed (map (@distance Z) hardwareCameras) ->
       Forall wellFormed (map (@light Z) hardwareCameras) ->
       canCamerasCoverDesiredRange desiredDistance desiredLight hardwareCameras
         = true ->
       inRange d desiredDistance = true ->
       inRange l desiredLight = true ->
       servedByOneCamera d l hardwareCameras = true).
Proof.
  intros Hall.
  specialize (Hall (mkRange 1 10) (mkRange 100 500)
    [mkCamera (mkRange 1 5) (mkRange 100 300);
     mkCamera (mkRange 6 10) (mkRange 301 500)] 1 500).
  assert (Hserved : servedByOneCamera 1 500
            [mkCamera (mkRange 1 5) (mkRange 100 300);
             mkCamera (mkRange 6 10) (mkRange 301 500)] = false)
    by reflexivity.
  rewrite Hall in Hserved; try reflexivity; try discriminate;
    repeat constructor; unfold wellFormed; simpl; lia.
Qed.

(** ** The test run *)

(** X16: every scenario of the test table yields the value it declares as
    expected, and the strings the run prints are exactly the output that
    README.md documents. *)
Theorem every_scenario_meets_its_expectation :
  Forall (fun t => Harness.actual t = Harness.expected t) Harness.tests /\
  Harness.runTests = Harness.documentedOutput.
Proof.
  split.
  - repeat constructor.
  - reflexivity.
Qed.
